(** * Verification of src/nginx_log_chat.py (NGINX log analytics pipeline)

    Shallow embedding of the parsing, loading, summary, anomaly and
    question-dispatch parts of [nginx_log_chat.py].  Text is modelled as
    [list ascii] (the characters of a Python [str] restricted to ASCII). *)

From Stdlib Require Import List Ascii String Arith ZArith Lia Bool
  Sorting.Sorted Sorting.Permutation.
Import ListNotations.
Open Scope list_scope.

(** Python text, as the list of its characters. *)
Definition str := list ascii.

(** A string literal of the source, as a [str]. *)
Definition L (s : string) : str := list_ascii_of_string s.

Definition str_eq_dec : forall a b : str, {a = b} + {a <> b} :=
  list_eq_dec ascii_dec.

Definition str_eqb (a b : str) : bool :=
  if str_eq_dec a b then true else false.

(** ** Character classes of [re] (ASCII part) *)

(** [str.isspace] on ASCII: tab, newline, vertical tab, form feed, carriage
    return (9-13), the separators 28-31 and space. *)
Definition is_space (c : ascii) : bool :=
  let n := nat_of_ascii c in
  ((9 <=? n) && (n <=? 13)) || ((28 <=? n) && (n <=? 32)).

Definition is_digit (c : ascii) : bool :=
  let n := nat_of_ascii c in (48 <=? n) && (n <=? 57).

(** The single-character classes the pattern uses. *)
Inductive cls :=
| NonSpace            (* \S *)
| Digit               (* \d *)
| NotChar (c : ascii) (* [^c] *).

Definition cls_ok (k : cls) (c : ascii) : bool :=
  match k with
  | NonSpace => negb (is_space c)
  | Digit => is_digit c
  | NotChar d => negb (Ascii.eqb c d)
  end.

(** ** Regular expressions and Python's backtracking matcher *)

Inductive regex :=
| RChr (c : ascii)               (* a literal character *)
| RCls (k : cls)                 (* one character of a class *)
| RStar (k : cls)                (* greedy [k*] *)
| RCat (r1 r2 : regex)
| RAlt (r1 r2 : regex)           (* [r1|r2], leftmost alternative first *)
| RGroup (name : str) (r : regex) (* [(?P<name>r)] *).

(** Named-group captures, most recent first. *)
Definition caps := list (str * str).

Section Matcher.
Variable A : Type.

(** Greedy star: consume as much as possible, then give back one character
    at a time until the continuation succeeds. *)
Fixpoint star_m (k : cls) (s : str) (cs : caps)
    (cont : str -> caps -> option A) : option A :=
  match s with
  | c :: s' =>
      if cls_ok k c then
        match star_m k s' cs cont with
        | Some x => Some x
        | None => cont s cs
        end
      else cont s cs
  | [] => cont [] cs
  end.

(** [m r s cs cont]: match [r] at the front of [s] and pass the rest of the
    input and the captures to [cont]; on failure of [cont], backtrack. *)
Fixpoint m (r : regex) (s : str) (cs : caps)
    (cont : str -> caps -> option A) {struct r} : option A :=
  match r with
  | RChr c =>
      match s with
      | c' :: s' => if Ascii.eqb c c' then cont s' cs else None
      | [] => None
      end
  | RCls k =>
      match s with
      | c' :: s' => if cls_ok k c' then cont s' cs else None
      | [] => None
      end
  | RStar k => star_m k s cs cont
  | RCat r1 r2 => m r1 s cs (fun s' cs' => m r2 s' cs' cont)
  | RAlt r1 r2 =>
      match m r1 s cs cont with
      | Some x => Some x
      | None => m r2 s cs cont
      end
  | RGroup n r1 =>
      m r1 s cs (fun s' cs' =>
        cont s' ((n, firstn (List.length s - List.length s') s) :: cs'))
  end.
End Matcher.

Arguments star_m {A}.
Arguments m {A}.

(** The match succeeds as soon as the pattern is matched ([re.search] does not
    require the match to reach the end of the line). *)
Definition accept (rest : str) (cs : caps) : option caps := Some cs.

(** [match_at i line]: the pattern tried at position [i]. *)
Definition match_at (r : regex) (i : nat) (line : str) : option caps :=
  m r (skipn i line) [] accept.

(** [re.search]: try positions 0, 1, ..., len line in order. *)
Fixpoint search (r : regex) (s : str) : option caps :=
  match m r s [] accept with
  | Some cs => Some cs
  | None =>
      match s with
      | _ :: s' => search r s'
      | [] => None
      end
  end.

(** ** LOG_PATTERN (lines 15-20) *)

Fixpoint RStr (s : str) (r : regex) : regex :=
  match s with
  | [] => r
  | c :: s' => RCat (RChr c) (RStr s' r)
  end.

Definition plus (k : cls) : regex := RCat (RCls k) (RStar k).

Definition dquote : ascii := ascii_of_nat 34.
Definition rbracket : ascii := "]"%char.

(** The pattern, with [Q] standing for the double-quote character and a
    space added after each star so as not to close this comment:
    [(?P<ip>\S+) - (?P<user>\S+) \[(?P<date>[^\]]+)\] ]
    [Q(?P<method>\S+) (?P<url>\S+) (?P<protocol>\S+)Q ]
    [(?P<status>\d{3}) (?P<size>\d+|-) ]
    [Q(?P<referrer>[^Q]* )Q Q(?P<agent>[^Q]* )Q] *)
Definition LOG_PATTERN : regex :=
  RCat (RGroup (L "ip") (plus NonSpace)) (RStr (L " - ")
  (RCat (RGroup (L "user") (plus NonSpace)) (RStr (L " [")
  (RCat (RGroup (L "date") (plus (NotChar rbracket))) (RStr ["]"%char; " "%char; dquote]
  (RCat (RGroup (L "method") (plus NonSpace)) (RStr (L " ")
  (RCat (RGroup (L "url") (plus NonSpace)) (RStr (L " ")
  (RCat (RGroup (L "protocol") (plus NonSpace)) (RStr [dquote; " "%char]
  (RCat (RGroup (L "status") (RCat (RCls Digit) (RCat (RCls Digit) (RCls Digit))))
    (RStr (L " ")
  (RCat (RGroup (L "size") (RAlt (plus Digit) (RChr "-"%char))) (RStr [" "%char; dquote]
  (RCat (RGroup (L "referrer") (RStar (NotChar dquote)))
    (RStr [dquote; " "%char; dquote]
  (RCat (RGroup (L "agent") (RStar (NotChar dquote))) (RChr dquote))))))))))))))))))).

(** ** Parsed entries: [m.groupdict()] *)

Record entry := mk_entry {
  ip : str; user : str; date : str; method : str; url : str;
  protocol : str; status : str; size : str; referrer : str; agent : str }.

Fixpoint lookup_cap (n : str) (cs : caps) : str :=
  match cs with
  | [] => []
  | (n', v) :: cs' => if str_eqb n n' then v else lookup_cap n cs'
  end.

Definition groupdict (cs : caps) : entry :=
  mk_entry (lookup_cap (L "ip") cs) (lookup_cap (L "user") cs)
    (lookup_cap (L "date") cs) (lookup_cap (L "method") cs)
    (lookup_cap (L "url") cs) (lookup_cap (L "protocol") cs)
    (lookup_cap (L "status") cs) (lookup_cap (L "size") cs)
    (lookup_cap (L "referrer") cs) (lookup_cap (L "agent") cs).

(** One line of the loop of [parse_nginx_logs] (lines 36-38):
    [m = LOG_PATTERN.search(line)] and [m.groupdict()] when it matched. *)
Definition parse (line : str) : option entry :=
  match search LOG_PATTERN line with
  | Some cs => Some (groupdict cs)
  | None => None
  end.

(** The literal line format the pattern describes, rendered from an entry. *)
Definition render (e : entry) : str :=
  ip e ++ L " - " ++ user e ++ L " [" ++ date e ++ ["]"%char; " "%char; dquote]
  ++ method e ++ L " " ++ url e ++ L " " ++ protocol e ++ [dquote; " "%char]
  ++ status e ++ L " " ++ size e ++ [" "%char; dquote] ++ referrer e
  ++ [dquote; " "%char; dquote] ++ agent e ++ [dquote].

(** Literals of log lines, written with a backquote for each double quote. *)
Definition Lq (s : string) : str :=
  map (fun c => if Ascii.eqb c "`"%char then dquote else c) (L s).

Definition ex_line : str :=
  Lq "1.1.1.1 - - [d] `GET /a HTTP/1.1` 200 10 `-` `curl` trailing".


(** ** Loading the log: [parse_nginx_logs] (lines 29-41) *)

(** The loop of lines 35-38, with [entries] as accumulator. *)
Fixpoint parse_loop (lines : list str) (entries : list entry) : list entry :=
  match lines with
  | [] => entries
  | line :: rest =>
      parse_loop rest
        (match parse line with
         | Some e => entries ++ [e]
         | None => entries
         end)
  end.

(** Python's [lines[-limit:]]: the start index [-limit] is counted from the
    end when negative and clamped to [0, len lines]. *)
Definition neg_slice {X} (lines : list X) (limit : Z) : list X :=
  let n := Z.of_nat (List.length lines) in
  let start := (- limit)%Z in
  let start' := if (start <? 0)%Z then Z.max 0 (start + n) else Z.min start n in
  skipn (Z.to_nat start') lines.

(** The result of [open(ACCESS_LOG)] followed by [f.readlines()]. *)
Inductive source :=
| FileNotFound
| Contents (lines : list str).

(** What the program prints in a box. *)
Inductive message :=
| MsgNotFound (path : str)    (* line 40 *)
| MsgNoLogs                   (* line 98 *).

Definition ACCESS_LOG : str := L "/var/log/nginx/access.log".
Definition LOG_LIMIT : Z := 500.

(** [parse_nginx_logs(limit)]: the messages printed and the list returned. *)
Definition parse_nginx_logs (src : source) (limit : Z) : list message * list entry :=
  match src with
  | FileNotFound => ([MsgNotFound ACCESS_LOG], [])
  | Contents lines => ([], parse_loop (neg_slice lines limit) [])
  end.

(** The start of the main program (lines 96-101): exit with status 1 when no
    entry was parsed, otherwise go on with the DataFrame of the entries. *)
Inductive startup :=
| Exit (code : Z)
| Run (df : list entry).

Definition main_start (src : source) : list message * startup :=
  let (out, logs) := parse_nginx_logs src LOG_LIMIT in
  match logs with
  | [] => (out ++ [MsgNoLogs], Exit 1)
  | _ => (out, Run logs)
  end.

(** ** The field classes of LOG_PATTERN, as a predicate on entries *)

Definition all_cls (k : cls) (w : str) : bool := forallb (cls_ok k) w.

(** A [k+] token: non-empty, every character in class [k]. *)
Definition token (k : cls) (w : str) : bool :=
  match w with [] => false | _ => all_cls k w end.

Definition status_ok (w : str) : bool :=
  match w with [a; b; c] => is_digit a && is_digit b && is_digit c | _ => false end.

(** The entries whose rendering the pattern describes group by group. *)
Definition fields_ok (e : entry) : bool :=
  token NonSpace (ip e) && token NonSpace (user e)
  && token (NotChar rbracket) (date e)
  && token NonSpace (method e) && token NonSpace (url e)
  && token NonSpace (protocol e) && status_ok (status e)
  && (token Digit (size e) || str_eqb (size e) (L "-"))
  && all_cls (NotChar dquote) (referrer e) && all_cls (NotChar dquote) (agent e).

(** The captures of a successful match of [render e], most recent first. *)
Definition caps_of (e : entry) : caps :=
  [(L "agent", agent e); (L "referrer", referrer e); (L "size", size e);
   (L "status", status e); (L "protocol", protocol e); (L "url", url e);
   (L "method", method e); (L "date", date e); (L "user", user e);
   (L "ip", ip e)].

(** ** The line grammar of the spec (section 4.1), following its words

    This second description is the one the spec states; it is compared with
    [fields_ok], which follows LOG_PATTERN.  Quoted strings may contain a
    double quote when a backslash precedes it ("no embedded unescaped
    quote"), and the timestamp is any text without a closing bracket. *)
Definition backslash : ascii := ascii_of_nat 92.

Fixpoint no_unescaped_quote (prev : ascii) (w : str) : bool :=
  match w with
  | [] => true
  | c :: w' =>
      (negb (Ascii.eqb c dquote) || Ascii.eqb prev backslash)
      && no_unescaped_quote c w'
  end.

Definition spec_fields_ok (e : entry) : bool :=
  token NonSpace (ip e) && token NonSpace (user e)
  && all_cls (NotChar rbracket) (date e)
  && token NonSpace (method e) && token NonSpace (url e)
  && token NonSpace (protocol e) && status_ok (status e)
  && (token Digit (size e) || str_eqb (size e) (L "-"))
  && no_unescaped_quote " "%char (referrer e)
  && no_unescaped_quote " "%char (agent e).

(** A line satisfies the grammar of the spec. *)
Definition spec_conforms (line : str) : Prop :=
  exists e, spec_fields_ok e = true /\ render e = line.

(** Sample entries. *)
Definition e0 : entry :=
  mk_entry (L "1.1.1.1") (L "-") (L "d") (L "GET") (L "/a") (L "HTTP/1.1")
    (L "200") (L "10") (L "-") (L "-").

(** A user agent with a backslash-escaped double quote. *)
Definition e_esc : entry :=
  mk_entry (L "1.1.1.1") (L "-") (L "d") (L "GET") (L "/a") (L "HTTP/1.1")
    (L "200") (L "10") (L "-") ([ "a"%char; backslash; dquote; "b"%char ]).

(** ** [Series.value_counts()] on a column of strings

    pandas counts the distinct values in the order they first appear (its
    hash table), then sorts the counts in descending order; the sort keeps
    the first-seen order between equal counts, which is what [insert_desc]
    does: a value is placed before every later one of the same count. *)

Fixpoint count_of (k : str) (xs : list str) : nat :=
  match xs with
  | [] => 0
  | x :: xs' => (if str_eq_dec k x then 1 else 0) + count_of k xs'
  end.

(** The distinct values, in the order of their first occurrence. *)
Fixpoint first_seen (xs : list str) : list str :=
  match xs with
  | [] => []
  | x :: xs' => x :: filter (fun y => negb (str_eqb y x)) (first_seen xs')
  end.

Fixpoint insert_desc (p : str * nat) (l : list (str * nat)) : list (str * nat) :=
  match l with
  | [] => [p]
  | q :: l' => if snd p <? snd q then q :: insert_desc p l' else p :: l
  end.

Definition sort_desc (l : list (str * nat)) : list (str * nat) :=
  fold_right insert_desc [] l.

Definition value_counts (xs : list str) : list (str * nat) :=
  sort_desc (map (fun k => (k, count_of k xs)) (first_seen xs)).

(** [dict.get] on a dictionary built by [to_dict()]. *)
Fixpoint assoc {V} (k : str) (d : list (str * V)) : option V :=
  match d with
  | [] => None
  | (k', v) :: d' => if str_eq_dec k k' then Some v else assoc k d'
  end.

(** Position of the first occurrence of [k] in [xs]. *)
Fixpoint index_of (k : str) (xs : list str) : nat :=
  match xs with
  | [] => 0
  | x :: xs' => if str_eq_dec k x then 0 else S (index_of k xs')
  end.

(** The order [value_counts xs] lists its entries in: count descending,
    then first occurrence in [xs]. *)
Definition ranked (xs : list str) (p q : str * nat) : Prop :=
  snd q < snd p \/ (snd p = snd q /\ index_of (fst p) xs < index_of (fst q) xs).

(** A ranking of the values of [xs]: each distinct value once, with its
    number of occurrences, in the order [ranked xs]. *)
Definition ranking_of (xs : list str) (vc : list (str * nat)) : Prop :=
  NoDup (map fst vc) /\
  (forall k, In k xs <-> In k (map fst vc)) /\
  (forall p, In p vc -> snd p = count_of (fst p) xs) /\
  StronglySorted (ranked xs) vc.

(** ** The DataFrame and the views computed from it

    [pd.DataFrame(logs)] is modelled as its list of rows; a column is the
    list of that field over the rows.  The main program only builds the
    DataFrame from a non-empty list (lines 97-99): on an empty DataFrame
    pandas has no [status] column and these functions would raise
    [KeyError]. *)

Record summary := mk_summary {
  total_requests : nat;
  status_counts : list (str * nat);
  top_ips : list (str * nat);
  top_urls : list (str * nat) }.

(** [generate_summary(df)] (lines 47-54); [head(n)] keeps the first [n]
    entries and [to_dict()] keeps their order. *)
Definition generate_summary (df : list entry) : summary :=
  mk_summary (List.length df)
    (value_counts (map status df))
    (firstn 3 (value_counts (map ip df)))
    (firstn 3 (value_counts (map url df))).

(** [str.startswith('5')]. *)
Definition starts5 (s : str) : bool :=
  match s with
  | c :: _ => Ascii.eqb c "5"%char
  | [] => false
  end.

(** [detect_anomalies(df)] (lines 56-62): the counts of the 5xx statuses,
    under the key [5xx_errors] when there is at least one. *)
Definition detect_anomalies (df : list entry) : list (str * list (str * nat)) :=
  let error_counts := value_counts (filter starts5 (map status df)) in
  match error_counts with
  | [] => []
  | _ => [(L "5xx_errors", error_counts)]
  end.

(** The count that the anomaly dictionary reports for status [c]. *)
Definition anomaly_count (an : list (str * list (str * nat))) (c : str) : option nat :=
  match assoc (L "5xx_errors") an with
  | Some d => assoc c d
  | None => None
  end.

(** The three tables shown on request (lines 129-136). *)
Definition status_table (df : list entry) : list (str * nat) :=
  value_counts (map status df).
Definition top_ips_table (df : list entry) : list (str * nat) :=
  firstn 10 (value_counts (map ip df)).
Definition top_urls_table (df : list entry) : list (str * nat) :=
  firstn 10 (value_counts (map url df)).

(** ** Question dispatch (lines 120 and 127) *)

(** [str.lower] on ASCII. *)
Definition ascii_lower (c : ascii) : ascii :=
  let n := nat_of_ascii c in
  if (65 <=? n) && (n <=? 90) then ascii_of_nat (n + 32) else c.

Definition lower (s : str) : str := map ascii_lower s.

Fixpoint prefixb (p s : str) : bool :=
  match p, s with
  | [], _ => true
  | c :: p', d :: s' => Ascii.eqb c d && prefixb p' s'
  | _ :: _, [] => false
  end.

(** Python's [sub in s] on strings. *)
Fixpoint contains (sub s : str) : bool :=
  prefixb sub s ||
  match s with
  | [] => false
  | _ :: s' => contains sub s'
  end.

Definition table_words : list str :=
  [L "status"; L "ip"; L "url"; L "table"; L "top"].

(** The two display decisions taken on [corrected_q], the question after
    spelling correction. *)
Definition show_anomalies (corrected_q : str) : bool :=
  contains (L "anomaly") (lower corrected_q).

Definition show_tables (corrected_q : str) : bool :=
  existsb (fun word => contains word (lower corrected_q)) table_words.

(** A row with only the fields the views read set. *)
Definition row (i u st : string) : entry :=
  mk_entry (L i) (L "-") (L "d") (L "GET") (L u) (L "HTTP/1.1") (L st) (L "0")
    (L "-") (L "-").

(** A store with the statuses 500, 500, 503. *)
Definition df_500_500_503 : list entry :=
  [row "1.1.1.1" "/a" "500"; row "1.1.1.1" "/a" "500"; row "1.1.1.1" "/a" "503"].

(** ** What a successful match consumed

    [consumes r s s' cs cs']: [r] can match the front of [s], leave [s'] and
    turn the captures [cs] into [cs'].  Used to read back what [m] found. *)
Inductive consumes : regex -> str -> str -> caps -> caps -> Prop :=
| C_chr c s cs : consumes (RChr c) (c :: s) s cs cs
| C_cls k c s cs : cls_ok k c = true -> consumes (RCls k) (c :: s) s cs cs
| C_star k w s cs : all_cls k w = true -> consumes (RStar k) (w ++ s) s cs cs
| C_cat r1 r2 s s1 s2 cs cs1 cs2 :
    consumes r1 s s1 cs cs1 -> consumes r2 s1 s2 cs1 cs2 ->
    consumes (RCat r1 r2) s s2 cs cs2
| C_alt_l r1 r2 s s' cs cs' :
    consumes r1 s s' cs cs' -> consumes (RAlt r1 r2) s s' cs cs'
| C_alt_r r1 r2 s s' cs cs' :
    consumes r2 s s' cs cs' -> consumes (RAlt r1 r2) s s' cs cs'
| C_group n r s s' cs cs' :
    consumes r s s' cs cs' ->
    consumes (RGroup n r) s s'
      cs ((n, firstn (List.length s - List.length s') s) :: cs').

(** The records of the lines that parse, in the order of the lines. *)
Fixpoint parsed_records (lines : list str) : list entry :=
  match lines with
  | [] => []
  | line :: rest =>
      match parse line with
      | Some e => e :: parsed_records rest
      | None => parsed_records rest
      end
  end.

(** ** The question loop of the main program (lines 95-140) *)

(** [str.strip()] on ASCII: drop the whitespace at both ends. *)
Fixpoint lstrip (s : str) : str :=
  match s with
  | c :: s' => if is_space c then lstrip s' else s
  | [] => []
  end.

Definition strip (s : str) : str := rev (lstrip (rev (lstrip s))).

(** [q.lower() in ["exit", "quit"]] (line 108). *)
Definition is_exit (q : str) : bool :=
  existsb (str_eqb (lower q)) [L "exit"; L "quit"].

(** What one [box_print] call shows, by the call site. *)
Inductive box :=
| BoxBanner                                   (* line 104 *)
| BoxGoodbye                                  (* line 109 *)
| BoxCorrected (corrected_q : str)            (* line 114 *)
| BoxAnomalies (an : list (str * list (str * nat))) (* line 122 *)
| BoxNoAnomalies                              (* line 124 *)
| BoxStatus (t : list (str * nat))            (* line 130 *)
| BoxIps (t : list (str * nat))               (* line 133 *)
| BoxUrls (t : list (str * nat))              (* line 136 *)
| BoxAnswer (answer : str)                    (* line 140 *).

(** How the program ends: [exit(code)], the [break] after an exit word, or
    the [EOFError] that [console.input] raises, uncaught, once the input is
    exhausted. *)
Inductive ending :=
| Exited (code : Z)
| SaidGoodbye
| InputEnded.

Section Session.
(** [correct_spelling] (TextBlob) and [ask_ai] (the [ollama] subprocess) are
    outside the embedding: the loop is modelled for any such functions. *)
Variable correct_spelling : str -> str.
Variable ask_ai : str -> summary -> list (str * list (str * nat)) -> str.
Variable df : list entry.

(** One pass of the loop body after the exit test (lines 112-140), on the
    stripped question [q]. *)
Definition turn (q : str) : list box :=
  let corrected_q := correct_spelling q in
  let summary := generate_summary df in
  let anomalies := detect_anomalies df in
  (if str_eqb corrected_q q then [] else [BoxCorrected corrected_q]) ++
  (if show_anomalies corrected_q then
     match anomalies with
     | [] => [BoxNoAnomalies]
     | _ => [BoxAnomalies anomalies]
     end
   else []) ++
  (if show_tables corrected_q then
     [BoxStatus (status_table df); BoxIps (top_ips_table df);
      BoxUrls (top_urls_table df)]
   else []) ++
  [BoxAnswer (ask_ai corrected_q summary anomalies)].

(** The [while True] loop (lines 106-140) over the lines the user types. *)
Fixpoint session (inputs : list str) : list box * ending :=
  match inputs with
  | [] => ([], InputEnded)
  | raw :: rest =>
      let q := strip raw in
      if is_exit q then ([BoxGoodbye], SaidGoodbye)
      else let (bs, o) := session rest in (turn q ++ bs, o)
  end.

End Session.


Definition is_answer (b : box) : bool :=
  match b with BoxAnswer _ => true | _ => false end.

(** ** Matcher lemmas *)

(** [k*] stops in front of [rest]. *)
Definition stops (k : cls) (rest : str) : bool :=
  match rest with [] => true | c :: _ => negb (cls_ok k c) end.

Section MatcherFacts.
Variable A : Type.
Implicit Types (cont : str -> caps -> option A) (x : A) (cs : caps).

Lemma star_m_stop k rest cs cont :
  stops k rest = true -> star_m k rest cs cont = cont rest cs.
Proof.
  destruct rest as [|c rest]; simpl; [reflexivity|].
  intros H; apply negb_true_iff in H; rewrite H; reflexivity.
Qed.

Lemma star_m_app k w s cs cont x :
  all_cls k w = true -> star_m k s cs cont = Some x ->
  star_m k (w ++ s) cs cont = Some x.
Proof.
  induction w as [|c w IH]; simpl; [tauto|].
  intros Hw Hs; apply andb_true_iff in Hw as [Hc Hw].
  rewrite Hc, (IH Hw Hs); reflexivity.
Qed.

Lemma star_m_greedy k w rest cs cont x :
  all_cls k w = true -> stops k rest = true -> cont rest cs = Some x ->
  star_m k (w ++ rest) cs cont = Some x.
Proof.
  intros Hw Hr Hc; apply star_m_app; auto.
  rewrite star_m_stop; auto.
Qed.

(** Greedy overshoot by one character [c], given back because the
    continuation fails after it. *)
Lemma star_m_overshoot k w c rest cs cont x :
  all_cls k w = true -> cls_ok k c = true -> stops k rest = true ->
  cont rest cs = None -> cont (c :: rest) cs = Some x ->
  star_m k (w ++ c :: rest) cs cont = Some x.
Proof.
  intros Hw Hc Hr Hn Hs; apply star_m_app; auto.
  simpl; rewrite Hc, star_m_stop, Hn; auto.
Qed.

Lemma firstn_consumed (w rest : str) :
  firstn (List.length (w ++ rest) - List.length rest) (w ++ rest) = w.
Proof.
  rewrite length_app, Nat.add_sub, firstn_app, Nat.sub_diag, firstn_all.
  simpl; apply app_nil_r.
Qed.

Lemma m_str s r rest cs cont :
  m (RStr s r) (s ++ rest) cs cont = m r rest cs cont.
Proof.
  induction s as [|c s IH]; simpl; [reflexivity|].
  rewrite Ascii.eqb_refl; exact IH.
Qed.

Lemma m_group_plus n k w rest cs cont x :
  token k w = true -> stops k rest = true ->
  cont rest ((n, w) :: cs) = Some x ->
  m (RGroup n (plus k)) (w ++ rest) cs cont = Some x.
Proof.
  destruct w as [|c w]; [discriminate|].
  simpl token; unfold all_cls; simpl forallb.
  intros Hw Hr Hc; apply andb_true_iff in Hw as [H1 Hw].
  unfold plus; cbn [m app]; rewrite H1.
  apply star_m_greedy; auto.
  change (c :: w ++ rest) with ((c :: w) ++ rest); rewrite firstn_consumed; exact Hc.
Qed.

Lemma m_group_plus_overshoot n k w c rest cs cont x :
  token k w = true -> cls_ok k c = true -> stops k rest = true ->
  (forall cs', cont rest cs' = None) ->
  cont (c :: rest) ((n, w) :: cs) = Some x ->
  m (RGroup n (plus k)) (w ++ c :: rest) cs cont = Some x.
Proof.
  destruct w as [|d w]; [discriminate|].
  simpl token; unfold all_cls; simpl forallb.
  intros Hw Hc Hr Hn Hs; apply andb_true_iff in Hw as [H1 Hw].
  unfold plus; cbn [m app]; rewrite H1.
  apply star_m_overshoot; auto.
  change (d :: w ++ c :: rest) with ((d :: w) ++ c :: rest).
  rewrite firstn_consumed; exact Hs.
Qed.

Lemma m_group_star n k w rest cs cont x :
  all_cls k w = true -> stops k rest = true ->
  cont rest ((n, w) :: cs) = Some x ->
  m (RGroup n (RStar k)) (w ++ rest) cs cont = Some x.
Proof.
  intros Hw Hr Hc; cbn [m].
  apply star_m_greedy; auto.
  rewrite firstn_consumed; exact Hc.
Qed.

Lemma m_cat r1 r2 s cs cont :
  m (RCat r1 r2) s cs cont = m r1 s cs (fun s' cs' => m r2 s' cs' cont).
Proof. reflexivity. Qed.

Lemma m_plus k w rest cs cont x :
  token k w = true -> stops k rest = true -> cont rest cs = Some x ->
  m (plus k) (w ++ rest) cs cont = Some x.
Proof.
  destruct w as [|c w]; [discriminate|].
  simpl token; unfold all_cls; simpl forallb.
  intros Hw Hr Hc; apply andb_true_iff in Hw as [H1 Hw].
  unfold plus; cbn [m app]; rewrite H1.
  apply star_m_greedy; auto.
Qed.

Lemma m_group_status n w rest cs cont x :
  status_ok w = true -> cont rest ((n, w) :: cs) = Some x ->
  m (RGroup n (RCat (RCls Digit) (RCat (RCls Digit) (RCls Digit))))
    (w ++ rest) cs cont = Some x.
Proof.
  destruct w as [|a [|b [|c [|d w]]]]; try discriminate.
  simpl status_ok; intros H Hc.
  apply andb_true_iff in H as [H Hc3]; apply andb_true_iff in H as [Ha Hb].
  cbn [m cls_ok app]; rewrite Ha, Hb, Hc3.
  change (a :: b :: c :: rest) with ([a; b; c] ++ rest).
  rewrite firstn_consumed; exact Hc.
Qed.

Lemma m_group_eq n r s cs cont :
  m (RGroup n r) s cs cont =
  m r s cs (fun s' cs' =>
    cont s' ((n, firstn (List.length s - List.length s') s) :: cs')).
Proof. reflexivity. Qed.

Lemma m_size_dash rest cs cont :
  m (RAlt (plus Digit) (RChr "-"%char)) (L "-" ++ rest) cs cont = cont rest cs.
Proof. reflexivity. Qed.

Lemma m_group_size n w rest cs cont x :
  (token Digit w || str_eqb w (L "-")) = true -> stops Digit rest = true ->
  cont rest ((n, w) :: cs) = Some x ->
  m (RGroup n (RAlt (plus Digit) (RChr "-"%char))) (w ++ rest) cs cont = Some x.
Proof.
  intros Hw Hr Hc; rewrite m_group_eq.
  destruct (token Digit w) eqn:Ht.
  - cbn [m]; rewrite (m_plus _ _ _ _ _ x Ht Hr); [reflexivity|].
    rewrite firstn_consumed; exact Hc.
  - unfold str_eqb in Hw.
    destruct (str_eq_dec w (L "-")) as [Heq|]; [subst w|discriminate].
    rewrite m_size_dash, firstn_consumed; exact Hc.
Qed.

Lemma m_group_plus_pair n k w c d rest cs cont x :
  token k w = true -> cls_ok k c = true -> cls_ok k d = false ->
  (forall cs', cont (d :: rest) cs' = None) ->
  cont ([c; d] ++ rest) ((n, w) :: cs) = Some x ->
  m (RGroup n (plus k)) (w ++ [c; d] ++ rest) cs cont = Some x.
Proof.
  intros Hw Hc Hd Hn Hs.
  apply (m_group_plus_overshoot n k w c (d :: rest)); auto.
  simpl; rewrite Hd; reflexivity.
Qed.

End MatcherFacts.

(** ** LOG_PATTERN matches the rendering of every well-formed entry *)

Lemma m_pattern_render {A} e post cs (cont : str -> caps -> option A) x :
  fields_ok e = true -> cont post (caps_of e ++ cs) = Some x ->
  m LOG_PATTERN (render e ++ post) cs cont = Some x.
Proof.
  unfold fields_ok; intros H Hc.
  repeat (apply andb_true_iff in H as [H ?]).
  unfold LOG_PATTERN, render; repeat rewrite <- app_assoc.
  rewrite m_cat; apply m_group_plus; [assumption|reflexivity|]; cbv beta.
  rewrite m_str, m_cat; apply m_group_plus; [assumption|reflexivity|]; cbv beta.
  rewrite m_str, m_cat; apply m_group_plus; [assumption|reflexivity|]; cbv beta.
  rewrite m_str, m_cat; apply m_group_plus; [assumption|reflexivity|]; cbv beta.
  rewrite m_str, m_cat; apply m_group_plus; [assumption|reflexivity|]; cbv beta.
  rewrite m_str, m_cat; apply m_group_plus_pair;
    [assumption|reflexivity|reflexivity|reflexivity|]; cbv beta.
  rewrite m_str, m_cat; apply m_group_status; [assumption|]; cbv beta.
  rewrite m_str, m_cat; apply m_group_size; [assumption|reflexivity|]; cbv beta.
  rewrite m_str, m_cat; apply m_group_star; [assumption|reflexivity|]; cbv beta.
  rewrite m_str, m_cat; apply m_group_star; [assumption|reflexivity|]; cbv beta.
  cbn [m app]; rewrite Ascii.eqb_refl; exact Hc.
Qed.

Lemma search_first r cs (line : str) :
  m r line [] accept = Some cs -> search r line = Some cs.
Proof. destruct line; simpl; intros ->; reflexivity. Qed.

Lemma groupdict_caps_of e : groupdict (caps_of e) = e.
Proof. destruct e; reflexivity. Qed.

Lemma parse_render_app e post :
  fields_ok e = true -> parse (render e ++ post) = Some e.
Proof.
  intros H; unfold parse.
  rewrite (search_first _ (caps_of e)); [f_equal; apply groupdict_caps_of|].
  apply m_pattern_render; [exact H|].
  rewrite app_nil_r; reflexivity.
Qed.

(** [re.search] returns the match at the leftmost position where the
    pattern matches. *)
Lemma search_leftmost r line i cs :
  match_at r i line = Some cs ->
  exists j cs', j <= i /\ match_at r j line = Some cs' /\ search r line = Some cs'.
Proof.
  unfold match_at; revert i cs.
  induction line as [|c line IH]; intros i cs H.
  - exists 0, cs; rewrite skipn_nil in H; simpl; rewrite H; auto with arith.
  - simpl search. destruct (m r (c :: line) [] accept) as [cs0|] eqn:E0.
    + exists 0, cs0; auto with arith.
    + destruct i as [|i]; [simpl in H; congruence|].
      simpl in H; destruct (IH i cs H) as (j & cs' & Hj & Hm & Hs).
      exists (S j), cs'; simpl; repeat split; auto with arith.
Qed.

Lemma search_none r line :
  search r line = None <-> forall i, match_at r i line = None.
Proof.
  split.
  - intros H i; destruct (match_at r i line) as [cs|] eqn:E; [|reflexivity].
    destruct (search_leftmost _ _ _ _ E) as (j & cs' & _ & _ & Hs); congruence.
  - unfold match_at; induction line as [|c line IH]; intros H; simpl.
    + specialize (H 0); simpl in H; rewrite H; reflexivity.
    + specialize (IH (fun i => H (S i))).
      pose proof (H 0) as H0; simpl in H0; rewrite H0, IH; reflexivity.
Qed.

Lemma parse_loop_skip lines1 line lines2 entries :
  parse line = None ->
  parse_loop (lines1 ++ line :: lines2) entries = parse_loop (lines1 ++ lines2) entries.
Proof.
  intros H; revert entries; induction lines1 as [|l lines1 IH]; intros entries; simpl.
  - rewrite H; reflexivity.
  - apply IH.
Qed.

(** Every rendered entry ends with the closing quote of the user agent. *)
Lemma render_last e : exists pre, render e = pre ++ [dquote].
Proof.
  unfold render; repeat rewrite app_assoc; eexists; reflexivity.
Qed.

(** ** Facts on [value_counts] *)

Lemma str_eqb_true a b : str_eqb a b = true <-> a = b.
Proof. unfold str_eqb; destruct (str_eq_dec a b); split; congruence. Qed.

Lemma first_seen_In k xs : In k (first_seen xs) <-> In k xs.
Proof.
  induction xs as [|x xs IH]; simpl; [tauto|].
  rewrite filter_In, IH, negb_true_iff.
  unfold str_eqb; destruct (str_eq_dec k x); split; intuition congruence.
Qed.

Lemma first_seen_NoDup xs : NoDup (first_seen xs).
Proof.
  induction xs as [|x xs IH]; simpl; constructor.
  - rewrite filter_In; intros [_ H].
    unfold str_eqb in H; destruct (str_eq_dec x x); simpl in H; congruence.
  - apply NoDup_filter; exact IH.
Qed.

Lemma StronglySorted_weaken {X} (R R' : X -> X -> Prop) l :
  (forall a b, In a l -> In b l -> R a b -> R' a b) ->
  StronglySorted R l -> StronglySorted R' l.
Proof.
  intros H S; induction S as [|a l S IH F]; constructor.
  - apply IH; intros; apply H; simpl; auto.
  - rewrite Forall_forall in *; intros b Hb; apply H; simpl; auto.
Qed.

Lemma StronglySorted_filter {X} (R : X -> X -> Prop) f l :
  StronglySorted R l -> StronglySorted R (filter f l).
Proof.
  intros S; induction S as [|a l S IH F]; simpl; [constructor|].
  destruct (f a); [|exact IH].
  constructor; [exact IH|].
  rewrite Forall_forall in *; intros b Hb; apply filter_In in Hb; apply F, Hb.
Qed.

Lemma first_seen_sorted xs :
  StronglySorted (fun a b => index_of a xs < index_of b xs) (first_seen xs).
Proof.
  induction xs as [|x xs IH]; simpl; constructor.
  - apply StronglySorted_filter with (f := fun y => negb (str_eqb y x)) in IH.
    revert IH; apply StronglySorted_weaken.
    intros a b Ha Hb H; apply filter_In in Ha as [_ Ha]; apply filter_In in Hb as [_ Hb].
    rewrite negb_true_iff in Ha, Hb; unfold str_eqb in Ha, Hb.
    destruct (str_eq_dec a x); [discriminate|]; destruct (str_eq_dec b x); [discriminate|].
    lia.
  - rewrite Forall_forall; intros b Hb; apply filter_In in Hb as [_ Hb].
    rewrite negb_true_iff in Hb; unfold str_eqb in Hb.
    destruct (str_eq_dec b x); [discriminate|].
    destruct (str_eq_dec x x); [lia|congruence].
Qed.

Lemma insert_desc_perm p l : Permutation (insert_desc p l) (p :: l).
Proof.
  induction l as [|q l IH]; simpl; [reflexivity|].
  destruct (snd p <? snd q); [|reflexivity].
  rewrite IH; apply perm_swap.
Qed.

Lemma sort_desc_perm l : Permutation (sort_desc l) l.
Proof.
  induction l as [|p l IH]; simpl; [reflexivity|].
  rewrite insert_desc_perm, IH; reflexivity.
Qed.

Lemma ranked_trans xs p q r : ranked xs p q -> ranked xs q r -> ranked xs p r.
Proof. unfold ranked; lia. Qed.

Lemma insert_desc_sorted xs p l :
  StronglySorted (ranked xs) l ->
  Forall (fun q => index_of (fst p) xs < index_of (fst q) xs) l ->
  StronglySorted (ranked xs) (insert_desc p l).
Proof.
  induction l as [|q l IH]; intros S F; simpl.
  - repeat constructor.
  - apply StronglySorted_inv in S as [S Fq]; inversion F as [|? ? Hq Fl]; subst.
    destruct (snd p <? snd q) eqn:E; [apply Nat.ltb_lt in E|apply Nat.ltb_ge in E].
    + constructor; [apply IH; auto|].
      rewrite Forall_forall in *; intros r Hr.
      apply (Permutation_in _ (insert_desc_perm p l)) in Hr as [<-|Hr].
      * left; exact E.
      * apply Fq, Hr.
    + constructor; [constructor; auto|].
      assert (Hpq : ranked xs p q) by (unfold ranked; lia).
      constructor; [exact Hpq|].
      rewrite Forall_forall in *; intros r Hr; eapply ranked_trans; eauto.
Qed.

Lemma sort_desc_sorted xs l :
  StronglySorted (fun a b => index_of (fst a) xs < index_of (fst b) xs) l ->
  StronglySorted (ranked xs) (sort_desc l).
Proof.
  intros S; induction S as [|a l S IH F]; simpl; [constructor|].
  apply insert_desc_sorted; [exact IH|].
  rewrite Forall_forall in *; intros b Hb.
  apply F, (Permutation_in _ (sort_desc_perm l)), Hb.
Qed.

Lemma StronglySorted_map_pair xs (g : str -> nat) ks :
  StronglySorted (fun a b => index_of a xs < index_of b xs) ks ->
  StronglySorted (fun a b => index_of (fst a) xs < index_of (fst b) xs)
    (map (fun k => (k, g k)) ks).
Proof.
  intros S; induction S as [|a l S IH F]; simpl; constructor; [exact IH|].
  rewrite Forall_map; exact F.
Qed.

Lemma value_counts_ranking xs : ranking_of xs (value_counts xs).
Proof.
  unfold value_counts.
  set (l := map (fun k => (k, count_of k xs)) (first_seen xs)).
  assert (P : Permutation (sort_desc l) l) by apply sort_desc_perm.
  assert (Hk : map fst l = first_seen xs).
  { unfold l; rewrite map_map; apply map_id. }
  split; [|split; [|split]].
  - eapply Permutation_NoDup; [symmetry; apply Permutation_map, P|].
    rewrite Hk; apply first_seen_NoDup.
  - intros k; rewrite <- first_seen_In, <- Hk.
    split; apply Permutation_in; [symmetry|]; apply Permutation_map, P.
  - intros p Hp; apply (Permutation_in _ P) in Hp.
    unfold l in Hp; apply in_map_iff in Hp as (k & <- & _); reflexivity.
  - apply sort_desc_sorted, StronglySorted_map_pair, first_seen_sorted.
Qed.

Lemma assoc_in {V} k (v : V) d : NoDup (map fst d) -> In (k, v) d -> assoc k d = Some v.
Proof.
  induction d as [|[k' v'] d IH]; simpl; [tauto|].
  intros N [E|H]; inversion N as [|? ? Hn N']; subst.
  - injection E as -> ->; destruct (str_eq_dec k k); congruence.
  - destruct (str_eq_dec k k') as [<-|]; [|auto].
    exfalso; apply Hn; apply (in_map fst) in H; exact H.
Qed.

Lemma assoc_notin {V} k (d : list (str * V)) : ~ In k (map fst d) -> assoc k d = None.
Proof.
  induction d as [|[k' v'] d IH]; simpl; [auto|].
  intros H; destruct (str_eq_dec k k'); [exfalso; auto|auto].
Qed.

Lemma assoc_value_counts k xs :
  assoc k (value_counts xs) =
  if in_dec str_eq_dec k xs then Some (count_of k xs) else None.
Proof.
  destruct (value_counts_ranking xs) as (N & Hin & Hc & _).
  destruct (in_dec str_eq_dec k xs) as [H|H]; rewrite Hin in H.
  - apply in_map_iff in H as ([k' v] & E & Hp); simpl in E; subst k'.
    rewrite (assoc_in _ v); auto; f_equal; apply (Hc _ Hp).
  - apply assoc_notin, H.
Qed.

Lemma count_of_filter f k xs :
  count_of k (filter f xs) = if f k then count_of k xs else 0.
Proof.
  induction xs as [|x xs IH]; simpl; [destruct (f k); reflexivity|].
  destruct (f x) eqn:E; simpl; rewrite IH;
    destruct (str_eq_dec k x) as [<-|]; destruct (f k); simpl; congruence.
Qed.

Lemma prefixb_spec p s : prefixb p s = true <-> exists post, s = p ++ post.
Proof.
  revert s; induction p as [|c p IH]; intros s; simpl.
  - split; eauto.
  - destruct s as [|d s].
    + split; [discriminate|intros [post E]; discriminate].
    + rewrite andb_true_iff, IH, Ascii.eqb_eq.
      split; [intros [-> [post ->]]; eauto|intros [post E]; injection E as -> ->; eauto].
Qed.

Lemma contains_spec sub s :
  contains sub s = true <-> exists pre post, s = pre ++ sub ++ post.
Proof.
  induction s as [|c s IH]; simpl; rewrite orb_true_iff, prefixb_spec.
  - split.
    + intros [[post E]|E]; [exists [], post; exact E|discriminate].
    + intros ([|d pre] & post & E); [left; eauto|discriminate].
  - rewrite IH; split.
    + intros [[post E]|(pre & post & E)]; [exists [], post; exact E|].
      exists (c :: pre), post; rewrite E; reflexivity.
    + intros ([|d pre] & post & E); [left; eauto|].
      injection E as -> E; right; eauto.
Qed.

(** ** Soundness of the matcher *)

Lemma star_m_sound {A} k s cs (cont : str -> caps -> option A) x :
  star_m k s cs cont = Some x ->
  exists w s', s = w ++ s' /\ all_cls k w = true /\ cont s' cs = Some x.
Proof.
  induction s as [|c s IH]; simpl.
  - intros H; exists [], []; auto.
  - destruct (cls_ok k c) eqn:Hc.
    + destruct (star_m k s cs cont) as [y|] eqn:E.
      * intros [= <-]; destruct (IH eq_refl) as (w & s' & -> & Hw & Hk).
        exists (c :: w), s'; simpl; rewrite Hc, Hw; auto.
      * intros H; exists [], (c :: s); auto.
    + intros H; exists [], (c :: s); auto.
Qed.

Lemma m_sound {A} r s cs (cont : str -> caps -> option A) x :
  m r s cs cont = Some x ->
  exists s' cs', consumes r s s' cs cs' /\ cont s' cs' = Some x.
Proof.
  revert s cs cont x; induction r as [c|k|k|r1 IH1 r2 IH2|r1 IH1 r2 IH2|n r IH];
    intros s cs cont x; simpl.
  - destruct s as [|c' s]; [discriminate|].
    destruct (Ascii.eqb c c') eqn:E; [|discriminate].
    apply Ascii.eqb_eq in E; subst c'; intros H; exists s, cs; split; [constructor|exact H].
  - destruct s as [|c' s]; [discriminate|].
    destruct (cls_ok k c') eqn:E; [|discriminate].
    intros H; exists s, cs; split; [constructor; exact E|exact H].
  - intros H; destruct (star_m_sound _ _ _ _ _ H) as (w & s' & -> & Hw & Hk).
    exists s', cs; split; [constructor; exact Hw|exact Hk].
  - intros H; destruct (IH1 _ _ _ _ H) as (s1 & cs1 & C1 & H1).
    destruct (IH2 _ _ _ _ H1) as (s2 & cs2 & C2 & H2).
    exists s2, cs2; split; [econstructor; eauto|exact H2].
  - destruct (m r1 s cs cont) as [y|] eqn:E.
    + intros [= <-]; destruct (IH1 _ _ _ _ E) as (s' & cs' & C & H).
      exists s', cs'; split; [apply C_alt_l; exact C|exact H].
    + intros H; destruct (IH2 _ _ _ _ H) as (s' & cs' & C & H').
      exists s', cs'; split; [apply C_alt_r; exact C|exact H'].
  - intros H; destruct (IH _ _ _ _ H) as (s' & cs' & C & H').
    exists s', ((n, firstn (List.length s - List.length s') s) :: cs').
    split; [constructor; exact C|exact H'].
Qed.

Lemma consumes_suffix r s s' cs cs' :
  consumes r s s' cs cs' -> exists w, s = w ++ s'.
Proof.
  induction 1 as [c s cs|k c s cs _|k w s cs _| r1 r2 s s1 s2 cs cs1 cs2 _ [w1 E1] _ [w2 E2]
                 | | |].
  - exists [c]; reflexivity.
  - exists [c]; reflexivity.
  - exists w; reflexivity.
  - exists (w1 ++ w2); subst; apply app_assoc.
  - assumption.
  - assumption.
  - assumption.
Qed.

Lemma inv_cat r1 r2 s s2 cs cs2 :
  consumes (RCat r1 r2) s s2 cs cs2 ->
  exists s1 cs1, consumes r1 s s1 cs cs1 /\ consumes r2 s1 s2 cs1 cs2.
Proof. intros H; inversion H; subst; eauto. Qed.

Lemma inv_str t r s s' cs cs' :
  consumes (RStr t r) s s' cs cs' ->
  exists s1, s = t ++ s1 /\ consumes r s1 s' cs cs'.
Proof.
  revert s; induction t as [|c t IH]; intros s H; simpl in *; [eauto|].
  apply inv_cat in H as (s1 & cs1 & H1 & H2); inversion H1; subst.
  destruct (IH _ H2) as (s2 & -> & H3); eauto.
Qed.

Lemma inv_group n r s s' cs cs'' :
  consumes (RGroup n r) s s' cs cs'' ->
  exists w cs', s = w ++ s' /\ consumes r s s' cs cs' /\ cs'' = (n, w) :: cs'.
Proof.
  intros H; inversion H as [| | | | | |? ? ? ? ? cs' C]; subst.
  destruct (consumes_suffix _ _ _ _ _ C) as [w ->].
  exists w, cs'; rewrite firstn_consumed; auto.
Qed.

Lemma inv_star k s s' cs cs' :
  consumes (RStar k) s s' cs cs' ->
  exists w, s = w ++ s' /\ all_cls k w = true /\ cs' = cs.
Proof. intros H; inversion H; subst; eauto. Qed.

Lemma inv_plus k s s' cs cs' :
  consumes (plus k) s s' cs cs' ->
  exists w, s = w ++ s' /\ token k w = true /\ cs' = cs.
Proof.
  intros H; apply inv_cat in H as (s1 & cs1 & H1 & H2).
  inversion H1 as [|? c s0 ? Hc| | | | |]; subst.
  apply inv_star in H2 as (w & -> & Hw & ->).
  exists (c :: w); simpl; unfold all_cls in *; simpl; rewrite Hc, Hw; auto.
Qed.

Lemma inv_group_plus n k s s' cs cs' :
  consumes (RGroup n (plus k)) s s' cs cs' ->
  exists w, s = w ++ s' /\ token k w = true /\ cs' = (n, w) :: cs.
Proof.
  intros H; apply inv_group in H as (w & cs1 & -> & H & ->).
  apply inv_plus in H as (w' & E & Hw & ->).
  apply app_inv_tail in E; subst; eauto.
Qed.

Lemma inv_group_star n k s s' cs cs' :
  consumes (RGroup n (RStar k)) s s' cs cs' ->
  exists w, s = w ++ s' /\ all_cls k w = true /\ cs' = (n, w) :: cs.
Proof.
  intros H; apply inv_group in H as (w & cs1 & -> & H & ->).
  apply inv_star in H as (w' & E & Hw & ->).
  apply app_inv_tail in E; subst; eauto.
Qed.

Lemma inv_group_status n s s' cs cs' :
  consumes (RGroup n (RCat (RCls Digit) (RCat (RCls Digit) (RCls Digit)))) s s' cs cs' ->
  exists w, s = w ++ s' /\ status_ok w = true /\ cs' = (n, w) :: cs.
Proof.
  intros H; apply inv_group in H as (w & cs1 & -> & H & ->).
  apply inv_cat in H as (s1 & c1 & H1 & H); apply inv_cat in H as (s2 & c2 & H2 & H3).
  inversion H1 as [|? a ? ? Ha| | | | |]; subst.
  inversion H2 as [|? b ? ? Hb| | | | |]; subst.
  inversion H3 as [|? c ? ? Hc| | | | |]; subst.
  match goal with E : _ = w ++ s' |- _ =>
    change (a :: b :: c :: s') with ([a; b; c] ++ s') in E;
    apply app_inv_tail in E; subst w end.
  simpl in Ha, Hb, Hc; exists [a; b; c]; simpl; rewrite Ha, Hb, Hc; auto.
Qed.

Lemma inv_group_size n s s' cs cs' :
  consumes (RGroup n (RAlt (plus Digit) (RChr "-"%char))) s s' cs cs' ->
  exists w, s = w ++ s' /\ (token Digit w || str_eqb w (L "-")) = true /\
            cs' = (n, w) :: cs.
Proof.
  intros H; apply inv_group in H as (w & cs1 & -> & H & ->).
  inversion H as [| | | |? ? ? ? ? ? H1|? ? ? ? ? ? H1|]; subst.
  - apply inv_plus in H1 as (w' & E & Hw & ->).
    apply app_inv_tail in E; subst.
    eexists; split; [reflexivity|]; split; [rewrite Hw; reflexivity|reflexivity].
  - inversion H1; subst.
    match goal with E : _ = w ++ s' |- _ =>
      change ("-"%char :: s') with ([ "-"%char ] ++ s') in E;
      apply app_inv_tail in E; subst w end.
    exists [ "-"%char ]; auto.
Qed.


Lemma consumes_pattern s s' cs :
  consumes LOG_PATTERN s s' [] cs ->
  exists e, fields_ok e = true /\ cs = caps_of e /\ s = render e ++ s'.
Proof.
  unfold LOG_PATTERN; intros R.
  apply inv_cat in R as (s1 & c1 & H & R); apply inv_group_plus in H as (w1 & -> & H1 & ->).
  apply inv_str in R as (t1 & -> & R).
  apply inv_cat in R as (s2 & c2 & H & R); apply inv_group_plus in H as (w2 & -> & H2 & ->).
  apply inv_str in R as (t2 & -> & R).
  apply inv_cat in R as (s3 & c3 & H & R); apply inv_group_plus in H as (w3 & -> & H3 & ->).
  apply inv_str in R as (t3 & -> & R).
  apply inv_cat in R as (s4 & c4 & H & R); apply inv_group_plus in H as (w4 & -> & H4 & ->).
  apply inv_str in R as (t4 & -> & R).
  apply inv_cat in R as (s5 & c5 & H & R); apply inv_group_plus in H as (w5 & -> & H5 & ->).
  apply inv_str in R as (t5 & -> & R).
  apply inv_cat in R as (s6 & c6 & H & R); apply inv_group_plus in H as (w6 & -> & H6 & ->).
  apply inv_str in R as (t6 & -> & R).
  apply inv_cat in R as (s7 & c7 & H & R); apply inv_group_status in H as (w7 & -> & H7 & ->).
  apply inv_str in R as (t7 & -> & R).
  apply inv_cat in R as (s8 & c8 & H & R); apply inv_group_size in H as (w8 & -> & H8 & ->).
  apply inv_str in R as (t8 & -> & R).
  apply inv_cat in R as (s9 & c9 & H & R); apply inv_group_star in H as (w9 & -> & H9 & ->).
  apply inv_str in R as (t9 & -> & R).
  apply inv_cat in R as (s10 & c10 & H & R);
    apply inv_group_star in H as (w10 & -> & H10 & ->).
  inversion R; subst.
  exists (mk_entry w1 w2 w3 w4 w5 w6 w7 w8 w9 w10); split; [|split].
  - unfold fields_ok; cbn [ip user date method url protocol status size referrer agent].
    rewrite H1, H2, H3, H4, H5, H6, H7, H8, H9, H10; reflexivity.
  - reflexivity.
  - unfold render; simpl ip; simpl user; simpl date; simpl method; simpl url;
      simpl protocol; simpl status; simpl size; simpl referrer; simpl agent.
    repeat rewrite <- app_assoc; reflexivity.
Qed.

Lemma search_some r line cs :
  search r line = Some cs -> exists j, match_at r j line = Some cs.
Proof.
  unfold match_at; induction line as [|c line IH]; simpl.
  - intros H; exists 0; simpl; destruct (m r [] [] accept); congruence.
  - destruct (m r (c :: line) [] accept) eqn:E.
    + intros [= <-]; exists 0; exact E.
    + intros H; destruct (IH H) as [j Hj]; exists (S j); exact Hj.
Qed.

Lemma parse_loop_app lines entries :
  parse_loop lines entries = entries ++ parsed_records lines.
Proof.
  revert entries; induction lines as [|l lines IH]; intros entries; simpl.
  - symmetry; apply app_nil_r.
  - rewrite IH; destruct (parse l); [rewrite <- app_assoc|]; reflexivity.
Qed.

Lemma parsed_records_length lines : List.length (parsed_records lines) <= List.length lines.
Proof. induction lines as [|l lines IH]; simpl; [lia|destruct (parse l); simpl; lia]. Qed.

Lemma parse_sound_aux line e :
  parse line = Some e ->
  fields_ok e = true /\ exists pre post, line = pre ++ render e ++ post.
Proof.
  unfold parse; destruct (search LOG_PATTERN line) as [c|] eqn:S; [|discriminate].
  intros [= <-].
  destruct (search_some _ _ _ S) as [j Hj]; unfold match_at in Hj.
  destruct (m_sound _ _ _ _ _ Hj) as (s' & cs' & C & Ha); injection Ha as ->.
  destruct (consumes_pattern _ _ _ C) as (e & He & -> & Hs).
  rewrite groupdict_caps_of; split; [exact He|].
  exists (firstn j line), s'; rewrite <- Hs; symmetry; apply firstn_skipn.
Qed.

(** ** Claims on parsing and loading *)

(** C1 (counterexample): a line that is a well-formed line followed by extra
    text does not satisfy the grammar, yet [parse] returns a record for it. *)
Lemma parse_accepts_line_with_suffix :
  ~ spec_conforms (render e0 ++ L " extra") /\ parse (render e0 ++ L " extra") <> None.
Proof.
  split.
  - intros (e & _ & Hr).
    destruct (render_last e) as [pre Hpre]; rewrite Hpre in Hr.
    apply (f_equal (@rev ascii)) in Hr; rewrite rev_app_distr in Hr.
    vm_compute in Hr; discriminate Hr.
  - vm_compute; discriminate.
Qed.

(** C1 (amended): [parse] returns no record exactly when the pattern matches
    at no position of the line, and such a line adds nothing to the entries:
    the loop goes on with the next lines as if it were absent. *)
Theorem parse_none_iff_no_match (line : str) :
  (parse line = None <-> forall i, match_at LOG_PATTERN i line = None) /\
  (forall lines1 lines2 entries, parse line = None ->
     parse_loop (lines1 ++ line :: lines2) entries =
     parse_loop (lines1 ++ lines2) entries).
Proof.
  split.
  - unfold parse; rewrite <- search_none.
    destruct (search LOG_PATTERN line); split; congruence.
  - intros; apply parse_loop_skip; assumption.
Qed.

Lemma parse_none_iff_no_match_witness :
  parse_loop ([render e0] ++ L "malformed line" :: [render e0]) [] =
  parse_loop ([render e0] ++ [render e0]) [].
Proof.
  apply (proj2 (parse_none_iff_no_match (L "malformed line"))).
  vm_compute; reflexivity.
Defined.

(** C2 (counterexample): a line of the spec's grammar whose user agent holds
    an escaped quote is cut at that quote: the record differs from the
    line's fields and does not render back to the line. *)
Lemma parse_escaped_quote_not_verbatim :
  spec_fields_ok e_esc = true /\
  exists r, parse (render e_esc) = Some r /\ agent r = [ "a"%char; backslash ] /\
            render r <> render e_esc.
Proof.
  split; [vm_compute; reflexivity|].
  eexists; split; [vm_compute; reflexivity|].
  split; [reflexivity|vm_compute; discriminate].
Qed.

Lemma fields_ok_no_quote e :
  fields_ok e = true -> ~ In dquote (referrer e) /\ ~ In dquote (agent e).
Proof.
  unfold fields_ok; intros H.
  apply andb_prop in H as [H Ha]; apply andb_prop in H as [_ Hr].
  unfold all_cls in Hr, Ha; rewrite forallb_forall in Hr, Ha.
  split; intros Hq; [specialize (Hr _ Hq)|specialize (Ha _ Hq)]; vm_compute in Hr, Ha;
    discriminate.
Qed.

(** C2 (amended): for every entry whose fields are in the classes of
    LOG_PATTERN (ip, user, method, url, protocol non-empty without whitespace,
    so possibly holding a double quote; date non-empty without a closing
    bracket; status three digits; size digits or a dash; referrer and agent
    without any double quote), [parse] of its rendered line returns exactly
    that entry.  An entry whose referrer or agent holds a double quote,
    escaped or not, is returned by [parse] for no line at all. *)
Theorem parse_render (e : entry) :
  (fields_ok e = true -> parse (render e) = Some e) /\
  (In dquote (referrer e) \/ In dquote (agent e) -> forall line, parse line <> Some e).
Proof.
  split.
  - intros H; rewrite <- (app_nil_r (render e)); apply parse_render_app; exact H.
  - intros Hq line Hp.
    destruct (parse_sound_aux line e Hp) as [Hf _].
    destruct (fields_ok_no_quote e Hf); tauto.
Qed.

Lemma parse_render_witness :
  parse (render e0) = Some e0 /\ parse (render e_esc) <> Some e_esc.
Proof.
  split.
  - apply (proj1 (parse_render e0)); vm_compute; reflexivity.
  - apply (proj2 (parse_render e_esc)); right; simpl; right; right; left; reflexivity.
Defined.

(** C3 (counterexample): the value returned for a missing log file is the
    same as for a readable file with no line, and the program reaches the
    same exit in both cases. *)
Lemma missing_file_same_as_empty :
  snd (parse_nginx_logs FileNotFound LOG_LIMIT) =
    snd (parse_nginx_logs (Contents []) LOG_LIMIT) /\
  snd (main_start FileNotFound) = snd (main_start (Contents [])).
Proof. split; reflexivity. Qed.

(** C3 (amended): on a missing file, [parse_nginx_logs] prints the not-found
    message and returns the empty list; the main program then prints the
    no-logs message and exits with status 1, which is also what it does for a
    readable source in which no line matched. *)
Theorem missing_file_returns_empty (limit : Z) :
  parse_nginx_logs FileNotFound limit = ([MsgNotFound ACCESS_LOG], []) /\
  main_start FileNotFound = ([MsgNotFound ACCESS_LOG; MsgNoLogs], Exit 1) /\
  (forall lines, snd (parse_nginx_logs (Contents lines) LOG_LIMIT) = [] ->
     main_start (Contents lines) = ([MsgNoLogs], Exit 1)).
Proof.
  split; [reflexivity|split; [reflexivity|]].
  intros lines H; unfold main_start.
  destruct (parse_nginx_logs (Contents lines) LOG_LIMIT) as [out logs] eqn:E.
  simpl in H; subst logs; simpl in E; injection E as <- _; reflexivity.
Qed.

Lemma missing_file_returns_empty_witness :
  main_start (Contents [L "malformed line"]) = ([MsgNoLogs], Exit 1).
Proof.
  apply (proj2 (proj2 (missing_file_returns_empty LOG_LIMIT))).
  vm_compute; reflexivity.
Defined.

(** C5 (code bug): with [limit = 0] the slice [lines[-0:]] is the whole
    file, so every line is parsed: two records from two lines, more than
    [min(0, 2) = 0]. *)
Theorem limit_zero_reads_whole_file :
  (forall lines, parse_nginx_logs (Contents lines) 0 = ([], parse_loop lines [])) /\
  List.length (snd (parse_nginx_logs (Contents [render e0; render e0]) 0)) = 2.
Proof.
  split; [|vm_compute; reflexivity].
  intros lines; unfold parse_nginx_logs, neg_slice; simpl.
  rewrite Z.min_l by lia; reflexivity.
Qed.

(** C9: the pattern is searched anywhere in the line.  If it matches at some
    position, [parse] returns the record of the match at the leftmost
    matching position; in particular a well-formed line with any text before
    and after it still yields a record. *)
Theorem parse_accepts_substring :
  (forall line i cs, match_at LOG_PATTERN i line = Some cs ->
     exists j cs', j <= i /\ match_at LOG_PATTERN j line = Some cs' /\
                   parse line = Some (groupdict cs')) /\
  (forall pre e post, fields_ok e = true ->
     exists r, parse (pre ++ render e ++ post) = Some r).
Proof.
  assert (H1 : forall line i cs, match_at LOG_PATTERN i line = Some cs ->
     exists j cs', j <= i /\ match_at LOG_PATTERN j line = Some cs' /\
                   parse line = Some (groupdict cs')).
  { intros line i cs H.
    destruct (search_leftmost _ _ _ _ H) as (j & cs' & Hj & Hm & Hs).
    exists j, cs'; unfold parse; rewrite Hs; auto. }
  split; [exact H1|].
  intros pre e post He.
  assert (Hm : match_at LOG_PATTERN (List.length pre) (pre ++ render e ++ post) =
               Some (caps_of e)).
  { unfold match_at; rewrite skipn_app, skipn_all, Nat.sub_diag; simpl.
    apply m_pattern_render; [exact He|rewrite app_nil_r; reflexivity]. }
  destruct (H1 _ _ _ Hm) as (j & cs' & _ & _ & Hp); eauto.
Qed.

Lemma parse_accepts_substring_witness :
  exists r, parse (L "junk " ++ render e0 ++ L " junk") = Some r.
Proof.
  apply (proj2 parse_accepts_substring); vm_compute; reflexivity.
Defined.

(** ** Claims on the summary, the anomalies and the dispatch *)

(** C4 (counterexample): on the statuses 500, 500, 503 the dictionary
    returned by [detect_anomalies] has the single key [5xx_errors], not the
    keys 500 and 503. *)
Lemma detect_nests_counts :
  detect_anomalies df_500_500_503 = [(L "5xx_errors", [(L "500", 2); (L "503", 1)])] /\
  map fst (detect_anomalies df_500_500_503) <> [L "500"; L "503"].
Proof. split; [vm_compute; reflexivity|vm_compute; discriminate]. Qed.

(** C4 (amended): on a non-empty store with no status starting with 5,
    [detect_anomalies] returns the empty dictionary.  On a store with some
    status starting with 5 it returns the single key [5xx_errors], whose
    value lists each 5-prefixed status of the store once, with its number
    of occurrences; on 500, 500, 503 that is [{5xx_errors: {500: 2, 503: 1}}]. *)
Theorem detect_empty_or_nested (df : list entry) :
  (df <> [] -> forallb (fun s => negb (starts5 s)) (map status df) = true ->
     detect_anomalies df = []) /\
  (existsb starts5 (map status df) = true ->
     exists counts, detect_anomalies df = [(L "5xx_errors", counts)] /\
       NoDup (map fst counts) /\
       forall c n, In (c, n) counts <->
         starts5 c = true /\ In c (map status df) /\ n = count_of c (map status df)) /\
  detect_anomalies df_500_500_503 = [(L "5xx_errors", [(L "500", 2); (L "503", 1)])].
Proof.
  split; [|split; [|vm_compute; reflexivity]].
  - intros _ H; unfold detect_anomalies.
    assert (E : filter starts5 (map status df) = []).
    { induction (map status df) as [|s ss IH]; simpl in *; [reflexivity|].
      apply andb_true_iff in H as [H1 H2]; apply negb_true_iff in H1.
      rewrite H1; apply IH, H2. }
    rewrite E; reflexivity.
  - intros H.
    set (xs := filter starts5 (map status df)).
    destruct (value_counts_ranking xs) as (N & Hin & Hc & _).
    assert (Ne : value_counts xs <> []).
    { apply existsb_exists in H as (c & Hc1 & Hc2).
      assert (Hx : In c xs) by (apply filter_In; auto).
      apply Hin in Hx; intros E; rewrite E in Hx; contradiction. }
    exists (value_counts xs); split; [|split; [exact N|]].
    + unfold detect_anomalies; fold xs.
      destruct (value_counts xs); [contradiction|reflexivity].
    + intros c n; split.
      * intros Hp.
        assert (Hx : In c xs) by (apply Hin; exact (in_map fst _ _ Hp)).
        apply filter_In in Hx as [Hx H5].
        pose proof (Hc _ Hp) as En; simpl in En; unfold xs in En.
        rewrite count_of_filter, H5 in En; auto.
      * intros (H5 & Hx & ->).
        assert (Hx' : In c xs) by (apply filter_In; auto).
        apply Hin, in_map_iff in Hx' as ([c' n'] & Ec & Hp); simpl in Ec; subst c'.
        pose proof (Hc _ Hp) as En; simpl in En; unfold xs in En.
        rewrite count_of_filter, H5 in En; subst n'; exact Hp.
Qed.

Lemma detect_empty_or_nested_witness :
  detect_anomalies [row "1.1.1.1" "/a" "200"] = [] /\
  exists counts,
    detect_anomalies [row "1.1.1.1" "/a" "200"; row "1.1.1.1" "/a" "502"] =
      [(L "5xx_errors", counts)] /\ In (L "502", 1) counts.
Proof.
  split.
  - apply (proj1 (detect_empty_or_nested [row "1.1.1.1" "/a" "200"])).
    + discriminate.
    + vm_compute; reflexivity.
  - assert (H : existsb starts5
                  (map status [row "1.1.1.1" "/a" "200"; row "1.1.1.1" "/a" "502"]) = true)
      by (vm_compute; reflexivity).
    destruct (proj1 (proj2 (detect_empty_or_nested
                [row "1.1.1.1" "/a" "200"; row "1.1.1.1" "/a" "502"])) H)
      as (counts & E & _ & Hc).
    exists counts; split; [exact E|].
    apply Hc; split; [reflexivity|split; [right; left; reflexivity|reflexivity]].
Defined.

(** C6 (counterexample): statuses 500 then 200, one each: the tie is listed
    in first-seen order, 500 before 200, not by ascending status code. *)
Lemma status_tie_not_ascending :
  status_counts (generate_summary [row "1.1.1.1" "/a" "500"; row "1.1.1.1" "/a" "200"])
  = [(L "500", 1); (L "200", 1)].
Proof. vm_compute; reflexivity. Qed.

(** C6 (amended): [status_counts] lists each distinct status string once
    with its number of occurrences, by descending count, ties in the order
    the statuses first appear in the store. *)
Theorem status_counts_ranking (df : list entry) :
  ranking_of (map status df) (status_counts (generate_summary df)).
Proof. apply value_counts_ranking. Qed.

(** C7: [top_ips] and [top_urls] are the first 3 entries, and the tables
    the first 10 entries, of the same ranking of the ip (url) column: count
    descending, ties in first-seen order. *)
Theorem top_views_ranking (df : list entry) :
  let ips := value_counts (map ip df) in
  let urls := value_counts (map url df) in
  ranking_of (map ip df) ips /\ ranking_of (map url df) urls /\
  top_ips (generate_summary df) = firstn 3 ips /\ top_ips_table df = firstn 10 ips /\
  top_urls (generate_summary df) = firstn 3 urls /\ top_urls_table df = firstn 10 urls.
Proof.
  intros ips urls.
  split; [apply value_counts_ranking|split; [apply value_counts_ranking|]].
  repeat split.
Qed.

(** C8: the anomaly view is shown exactly when the lower-cased question
    contains [anomaly], and the tables exactly when it contains one of
    [status], [ip], [url], [table], [top]; each decision reads only the
    question. *)
Theorem dispatch_flags (q : str) :
  (show_anomalies q = true <->
     exists pre post, lower q = pre ++ L "anomaly" ++ post) /\
  (show_tables q = true <->
     exists word, In word table_words /\
       exists pre post, lower q = pre ++ word ++ post).
Proof.
  split.
  - apply contains_spec.
  - unfold show_tables; rewrite existsb_exists.
    split; intros [w [Hw H]]; exists w; split; auto; apply contains_spec; exact H.
Qed.

(** C10: for every status [c], the count the anomaly dictionary reports is
    the count of [status_counts] when [c] starts with 5, and nothing
    otherwise. *)
Theorem anomalies_agree_with_summary (df : list entry) (c : str) :
  anomaly_count (detect_anomalies df) c =
  if starts5 c then assoc c (status_counts (generate_summary df)) else None.
Proof.
  assert (E : anomaly_count (detect_anomalies df) c =
              assoc c (value_counts (filter starts5 (map status df)))).
  { unfold anomaly_count, detect_anomalies.
    destruct (value_counts (filter starts5 (map status df))); [reflexivity|].
    reflexivity. }
  rewrite E; simpl status_counts; rewrite !assoc_value_counts, count_of_filter.
  destruct (in_dec str_eq_dec c (filter starts5 (map status df))) as [H|H];
  destruct (starts5 c) eqn:S5; destruct (in_dec str_eq_dec c (map status df)) as [H'|H'];
  try reflexivity; exfalso.
  all: try (apply filter_In in H as [H1 H2]; (tauto || congruence)).
  all: apply H, filter_In; auto.
Qed.

(** ** Sample runs *)

Example parse_ex :
  parse ex_line = Some (mk_entry (L "1.1.1.1") (L "-") (L "d") (L "GET") (L "/a")
    (L "HTTP/1.1") (L "200") (L "10") (L "-") (L "curl")).
Proof. vm_compute. reflexivity. Qed.

Example summary_ex :
  let df := [row "1.1.1.1" "/a" "200"; row "1.1.1.1" "/b" "500"] in
  total_requests (generate_summary df) = 2 /\
  status_counts (generate_summary df) = [(L "200", 1); (L "500", 1)] /\
  detect_anomalies df = [(L "5xx_errors", [(L "500", 1)])].
Proof. vm_compute; auto. Qed.

Example dispatch_ex :
  show_tables (L "show me the top status codes") = true /\
  show_anomalies (L "show me the top status codes") = false /\
  show_anomalies (L "any anomaly today?") = true.
Proof. vm_compute; auto. Qed.

Lemma in_parsed_records e lines :
  In e (parsed_records lines) -> exists line, In line lines /\ parse line = Some e.
Proof.
  induction lines as [|l lines IH]; simpl; [tauto|].
  destruct (parse l) as [e'|] eqn:E; [intros [<-|H]|intros H]; eauto;
    destruct (IH H) as (line & ? & ?); eauto.
Qed.

(** ** Further properties of the code *)

(** Every record [parse] returns has its fields in the pattern's classes
    (in particular a three-digit status and a size of digits or a dash), and
    its rendering occurs verbatim in the line. *)
Theorem parse_sound (line : str) (e : entry) :
  parse line = Some e ->
  fields_ok e = true /\ exists pre post, line = pre ++ render e ++ post.
Proof. apply parse_sound_aux. Qed.

Lemma parse_sound_witness :
  fields_ok e0 = true /\
  exists pre post, L "x " ++ render e0 ++ L " y" = pre ++ render e0 ++ post.
Proof.
  apply parse_sound; vm_compute; reflexivity.
Defined.

(** Parsing the rendering of a parsed record gives the same record back. *)
Theorem parse_reparse (line : str) (e : entry) :
  parse line = Some e -> parse (render e) = Some e.
Proof.
  intros H; destruct (parse_sound_aux _ _ H) as [He _].
  rewrite <- (app_nil_r (render e)); apply parse_render_app; exact He.
Qed.

Lemma parse_reparse_witness : parse (render e0) = Some e0.
Proof.
  apply (parse_reparse (render e0 ++ L " y")); vm_compute; reflexivity.
Defined.

(** Every record in the list [parse_nginx_logs] returns is well-formed. *)
Theorem loaded_records_well_formed (src : source) (limit : Z) (e : entry) :
  In e (snd (parse_nginx_logs src limit)) -> fields_ok e = true.
Proof.
  destruct src as [|lines]; simpl; [tauto|].
  rewrite parse_loop_app; simpl; intros H.
  destruct (in_parsed_records _ _ H) as (line & _ & Hp).
  apply (parse_sound_aux _ _ Hp).
Qed.

Lemma loaded_records_well_formed_witness :
  fields_ok e0 = true.
Proof.
  apply (loaded_records_well_formed (Contents [render e0]) 1).
  vm_compute; left; reflexivity.
Defined.

(** With [limit >= 1], [parse_nginx_logs] parses exactly the last
    [min(limit, len lines)] lines, keeps the records of those that match in
    their order, and so returns at most [min(limit, len lines)] records. *)
Theorem load_positive_limit (lines : list str) (limit : Z) :
  (1 <= limit)%Z ->
  snd (parse_nginx_logs (Contents lines) limit) =
    parsed_records (skipn (List.length lines - Z.to_nat limit) lines) /\
  List.length (snd (parse_nginx_logs (Contents lines) limit)) <=
    Nat.min (Z.to_nat limit) (List.length lines).
Proof.
  intros Hl.
  assert (E : snd (parse_nginx_logs (Contents lines) limit) =
    parsed_records (skipn (List.length lines - Z.to_nat limit) lines)).
  { simpl; rewrite parse_loop_app; simpl; unfold neg_slice.
    replace (- limit <? 0)%Z with true by (symmetry; apply Z.ltb_lt; lia).
    f_equal; f_equal; lia. }
  split; [exact E|].
  rewrite E; etransitivity; [apply parsed_records_length|].
  rewrite length_skipn; lia.
Qed.

Lemma load_positive_limit_witness :
  snd (parse_nginx_logs (Contents [L "x"; render e0; render e0]) 1) =
    parsed_records (skipn 2 [L "x"; render e0; render e0]).
Proof.
  assert (H : (1 <= 1)%Z) by lia.
  exact (proj1 (load_positive_limit [L "x"; render e0; render e0] 1 H)).
Defined.

Lemma list_sum_perm (l l' : list (str * nat)) :
  Permutation l l' -> list_sum (map snd l) = list_sum (map snd l').
Proof. induction 1; simpl; lia. Qed.

Lemma list_sum_cons' a l : list_sum (a :: l) = a + list_sum l.
Proof. reflexivity. Qed.

Lemma list_sum_filter_neq (f : str -> nat) x ks :
  NoDup ks ->
  list_sum (map f ks) =
  (if in_dec str_eq_dec x ks then f x else 0) +
  list_sum (map f (filter (fun y => negb (str_eqb y x)) ks)).
Proof.
  induction 1 as [|y ks Hy N IH]; [reflexivity|].
  cbn [map list_sum filter].
  destruct (str_eq_dec y x) as [<-|Hne].
  - assert (Ey : str_eqb y y = true) by (apply str_eqb_true; reflexivity).
    rewrite Ey; simpl negb; cbv iota.
    destruct (in_dec str_eq_dec y (y :: ks)) as [_|Hn]; [|exfalso; apply Hn; left; auto].
    assert (Ef : filter (fun y0 => negb (str_eqb y0 y)) ks = ks).
    { apply forallb_filter_id, forallb_forall; intros z Hz.
      unfold str_eqb; destruct (str_eq_dec z y); [subst; contradiction|reflexivity]. }
    rewrite Ef; reflexivity.
  - assert (Ey : str_eqb y x = false)
      by (unfold str_eqb; destruct (str_eq_dec y x); congruence).
    rewrite Ey; simpl negb; cbv iota; cbn [map].
    rewrite !list_sum_cons', IH.
    destruct (in_dec str_eq_dec x ks) as [H1|H1];
      destruct (in_dec str_eq_dec x (y :: ks)) as [H2|H2]; simpl in *; try lia.
    + exfalso; auto.
    + destruct H2; [congruence|contradiction].
Qed.

Lemma count_of_notin k xs : ~ In k xs -> count_of k xs = 0.
Proof.
  induction xs as [|x xs IH]; simpl; [reflexivity|].
  intros H; destruct (str_eq_dec k x); [subst; tauto|]; apply IH; tauto.
Qed.

Lemma sum_first_seen xs :
  list_sum (map (fun k => count_of k xs) (first_seen xs)) = List.length xs.
Proof.
  induction xs as [|x xs IH]; simpl; [reflexivity|].
  destruct (str_eq_dec x x) as [_|]; [|congruence].
  rewrite (list_sum_filter_neq (fun k => count_of k xs) x _ (first_seen_NoDup xs)) in IH.
  assert (E : map (fun k => (if str_eq_dec k x then 1 else 0) + count_of k xs)
                (filter (fun y => negb (str_eqb y x)) (first_seen xs)) =
              map (fun k => count_of k xs)
                (filter (fun y => negb (str_eqb y x)) (first_seen xs))).
  { apply map_ext_in; intros k Hk; apply filter_In in Hk as [_ Hk].
    unfold str_eqb in Hk; destruct (str_eq_dec k x); [discriminate|reflexivity]. }
  rewrite E.
  destruct (in_dec str_eq_dec x (first_seen xs)) as [Hin|Hin].
  - lia.
  - rewrite first_seen_In in Hin; rewrite count_of_notin by exact Hin; lia.
Qed.

Lemma sum_value_counts xs : list_sum (map snd (value_counts xs)) = List.length xs.
Proof.
  unfold value_counts; rewrite (list_sum_perm _ _ (sort_desc_perm _)), map_map.
  apply sum_first_seen.
Qed.

Lemma in_skipn_in {A} n (l : list A) x : In x (skipn n l) -> In x l.
Proof.
  intros H; rewrite <- (firstn_skipn n l); apply in_or_app; right; exact H.
Qed.

Lemma ranked_prefix_dominates xs vc n p q :
  StronglySorted (ranked xs) vc -> In p (firstn n vc) -> In q (skipn n vc) ->
  snd q <= snd p.
Proof.
  revert vc; induction n as [|n IH]; intros vc S Hp Hq; [simpl in Hp; tauto|].
  destruct vc as [|a vc]; [simpl in Hp; tauto|].
  apply StronglySorted_inv in S as [S F]; simpl in Hp, Hq.
  destruct Hp as [<-|Hp]; [|eapply IH; eauto].
  rewrite Forall_forall in F; apply in_skipn_in in Hq.
  specialize (F q Hq); unfold ranked in F; lia.
Qed.

(** The counts of [status_counts] add up to [total_requests]: every row is
    counted once, under its status. *)
Theorem status_counts_total (df : list entry) :
  list_sum (map snd (status_counts (generate_summary df))) =
  total_requests (generate_summary df).
Proof. simpl; rewrite sum_value_counts, length_map; reflexivity. Qed.

(** The counts [detect_anomalies] reports add up to the number of rows whose
    status starts with 5. *)
Theorem anomaly_counts_total (df : list entry) :
  list_sum (map (fun p => list_sum (map snd (snd p))) (detect_anomalies df)) =
  List.length (filter (fun e => starts5 (status e)) df).
Proof.
  assert (E : List.length (filter (fun e => starts5 (status e)) df) =
              List.length (filter starts5 (map status df))).
  { induction df as [|e df IH]; simpl; [reflexivity|].
    destruct (starts5 (status e)); simpl; lia. }
  rewrite E, <- sum_value_counts; unfold detect_anomalies.
  destruct (value_counts (filter starts5 (map status df))); simpl; lia.
Qed.

(** [top_ips] holds at most three addresses, and no address of the store
    left out of it has more requests than one kept in it; likewise for
    [top_urls]. *)
Theorem top_three_dominate (df : list entry) :
  List.length (top_ips (generate_summary df)) <= 3 /\
  List.length (top_urls (generate_summary df)) <= 3 /\
  (forall k p, In k (map ip df) -> ~ In k (map fst (top_ips (generate_summary df))) ->
     In p (top_ips (generate_summary df)) -> count_of k (map ip df) <= snd p) /\
  (forall k p, In k (map url df) -> ~ In k (map fst (top_urls (generate_summary df))) ->
     In p (top_urls (generate_summary df)) -> count_of k (map url df) <= snd p).
Proof.
  assert (G : forall xs k p, In k xs -> ~ In k (map fst (firstn 3 (value_counts xs))) ->
            In p (firstn 3 (value_counts xs)) -> count_of k xs <= snd p).
  { intros xs k p Hk Hn Hp.
    destruct (value_counts_ranking xs) as (_ & Hin & Hc & S).
    apply Hin, in_map_iff in Hk as ([k' v] & Ek & Hq); simpl in Ek; subst k'.
    rewrite <- (firstn_skipn 3 (value_counts xs)) in Hq; apply in_app_or in Hq as [Hq|Hq].
    - exfalso; apply Hn; exact (in_map fst _ _ Hq).
    - change k with (fst (k, v)); rewrite <- (Hc (k, v)) by (eapply in_skipn_in; eauto).
      eapply ranked_prefix_dominates; eauto. }
  unfold generate_summary; cbn [top_ips top_urls].
  split; [apply firstn_le_length|split; [apply firstn_le_length|]].
  split; intros; apply G; auto.
Qed.

(** ** The question loop *)

Lemma lstrip_spaces a q : forallb is_space a = true -> lstrip (a ++ q) = lstrip q.
Proof.
  induction a as [|c a IH]; simpl; [reflexivity|].
  intros H; apply andb_prop in H as [-> H]; auto.
Qed.

Lemma lstrip_nil q : lstrip q = [] -> forallb is_space q = true.
Proof.
  induction q as [|c q IH]; simpl; [reflexivity|].
  destruct (is_space c); simpl; [exact IH|discriminate].
Qed.

Lemma lstrip_app q b : lstrip q <> [] -> lstrip (q ++ b) = lstrip q ++ b.
Proof.
  induction q as [|c q IH]; simpl; [congruence|].
  destruct (is_space c); [exact IH|reflexivity].
Qed.

Lemma forallb_rev {A} (f : A -> bool) l : forallb f (rev l) = forallb f l.
Proof.
  induction l as [|x l IH]; simpl; [reflexivity|].
  rewrite forallb_app, IH; simpl; rewrite andb_true_r, andb_comm; reflexivity.
Qed.

Lemma lstrip_all_spaces b : forallb is_space b = true -> lstrip b = [].
Proof. intros H; rewrite <- (app_nil_r b), lstrip_spaces by exact H; reflexivity. Qed.

Lemma lstrip_head q : lstrip q = [] \/ exists c t, lstrip q = c :: t /\ is_space c = false.
Proof.
  induction q as [|c q IH]; simpl; [left; reflexivity|].
  destruct (is_space c) eqn:E; [exact IH|right; eauto].
Qed.

Lemma lstrip_suffix q : exists a, q = a ++ lstrip q /\ forallb is_space a = true.
Proof.
  induction q as [|c q IH]; simpl; [exists []; auto|].
  destruct (is_space c) eqn:E.
  - destruct IH as (a & Ea & Ha); exists (c :: a); simpl; rewrite E, <- Ea; auto.
  - exists []; auto.
Qed.

Lemma turn_answers cs ask df q :
  filter is_answer (turn cs ask df q) =
  [BoxAnswer (ask (cs q) (generate_summary df) (detect_anomalies df))].
Proof.
  unfold turn; rewrite !filter_app.
  destruct (str_eqb (cs q) q), (show_anomalies (cs q)), (show_tables (cs q));
    try destruct (detect_anomalies df); reflexivity.
Qed.

(** [strip] removes exactly the whitespace at both ends: the result sits in
    the input between two runs of whitespace and neither starts nor ends
    with whitespace. *)
Theorem strip_trims (raw : str) :
  (exists a b, raw = a ++ strip raw ++ b /\
     forallb is_space a = true /\ forallb is_space b = true) /\
  (strip raw = [] \/
   exists c t c' t', strip raw = c :: t /\ strip raw = t' ++ [c'] /\
     is_space c = false /\ is_space c' = false).
Proof.
  unfold strip.
  destruct (lstrip_suffix raw) as (a & Ea & Ha).
  destruct (lstrip_suffix (rev (lstrip raw))) as (b & Eb & Hb).
  split.
  - exists a, (rev b); split; [|split; [exact Ha|rewrite forallb_rev; exact Hb]].
    rewrite Ea at 1; f_equal.
    rewrite <- rev_app_distr, <- Eb, rev_involutive; reflexivity.
  - destruct (lstrip_head (rev (lstrip raw))) as [E|(c' & t' & E & Hc')].
    + left; rewrite E; reflexivity.
    + right. destruct (lstrip_head raw) as [E0|(c & t & E0 & Hc)].
      { rewrite E0 in E; simpl in E; discriminate. }
      (* the first character of the result is that of [lstrip raw] *)
      assert (Hb' : forallb is_space (rev b) = true) by (rewrite forallb_rev; exact Hb).
      assert (Er : lstrip raw = rev (lstrip (rev (lstrip raw))) ++ rev b).
      { rewrite <- rev_app_distr, <- Eb, rev_involutive; reflexivity. }
      destruct (rev (lstrip (rev (lstrip raw)))) as [|d u] eqn:Ed.
      { rewrite E in Ed; simpl in Ed; destruct (rev t'); discriminate. }
      exists d, u, c', (rev t'); split; [reflexivity|split].
      * rewrite <- Ed, E; reflexivity.
      * split; [|exact Hc'].
        rewrite E0 in Er; simpl in Er; injection Er as -> _; exact Hc.
Qed.

(** Whitespace typed around a question changes nothing: [strip] gives the
    same question, so the exit test and the turn are the same. *)
Theorem strip_pad (a q b : str) :
  forallb is_space a = true -> forallb is_space b = true ->
  strip (a ++ q ++ b) = strip q.
Proof.
  intros Ha Hb; unfold strip; rewrite lstrip_spaces by exact Ha.
  destruct (lstrip_head q) as [E|(c & t & E & Hc)].
  - rewrite lstrip_spaces by (apply lstrip_nil; exact E).
    rewrite (lstrip_all_spaces b Hb), E; reflexivity.
  - rewrite lstrip_app by (rewrite E; discriminate).
    rewrite rev_app_distr, lstrip_spaces by (rewrite forallb_rev; exact Hb).
    reflexivity.
Qed.

Lemma strip_pad_witness :
  strip (L " " ++ L "Quit" ++ L "  ") = L "Quit" /\ is_exit (L "Quit") = true.
Proof.
  split; [|reflexivity].
  rewrite (strip_pad (L " ") (L "Quit") (L "  ")) by reflexivity; reflexivity.
Defined.

(** The loop stops at the first line that is [exit] or [quit] (any case,
    any surrounding whitespace): it says goodbye, and no later line is read;
    every earlier line got exactly its own turn. *)
Theorem session_stops_at_exit cs ask df (pre : list str) (raw : str) (post : list str) :
  Forall (fun r => is_exit (strip r) = false) pre ->
  is_exit (strip raw) = true ->
  session cs ask df (pre ++ raw :: post) =
  (flat_map (fun r => turn cs ask df (strip r)) pre ++ [BoxGoodbye], SaidGoodbye).
Proof.
  intros Hp Hr; induction Hp as [|r pre Hr' Hp IH]; simpl.
  - rewrite Hr; reflexivity.
  - rewrite Hr', IH, app_assoc; reflexivity.
Qed.

Lemma session_stops_at_exit_witness :
  session (fun q => q) (fun _ _ _ => L "ok") [] ([L " hi"] ++ L "QUIT " :: [L "x"]) =
  (flat_map (fun r => turn (fun q => q) (fun _ _ _ => L "ok") [] (strip r)) [L " hi"]
     ++ [BoxGoodbye], SaidGoodbye).
Proof.
  apply session_stops_at_exit; [repeat constructor|reflexivity].
Defined.

(** When no line is an exit word, every line gets its turn and the loop
    ends only when the input runs out, with the uncaught [EOFError]. *)
Theorem session_input_ended cs ask df (inputs : list str) :
  Forall (fun r => is_exit (strip r) = false) inputs ->
  session cs ask df inputs =
  (flat_map (fun r => turn cs ask df (strip r)) inputs, InputEnded).
Proof.
  induction 1 as [|r inputs Hr _ IH]; simpl; [reflexivity|].
  rewrite Hr, IH; reflexivity.
Qed.

Lemma session_input_ended_witness :
  session (fun q => q) (fun _ _ _ => L "ok") [] [L "top urls"] =
  (flat_map (fun r => turn (fun q => q) (fun _ _ _ => L "ok") [] (strip r)) [L "top urls"],
   InputEnded).
Proof. apply session_input_ended; repeat constructor. Defined.

(** Every question before the exit word gets exactly one AI answer, in the
    order of the questions, asked with the spelling-corrected question and
    the summary and anomalies of the whole store; the exit line gets none. *)
Theorem one_answer_per_question cs ask df (pre : list str) (raw : str) (post : list str) :
  Forall (fun r => is_exit (strip r) = false) pre ->
  is_exit (strip raw) = true ->
  filter is_answer (fst (session cs ask df (pre ++ raw :: post))) =
  map (fun r => BoxAnswer (ask (cs (strip r)) (generate_summary df) (detect_anomalies df)))
    pre.
Proof.
  intros Hp Hr; induction Hp as [|r pre Hr' Hp IH]; simpl.
  - rewrite Hr; reflexivity.
  - rewrite Hr'.
    destruct (session cs ask df (pre ++ raw :: post)) as [bs o]; simpl in *.
    rewrite filter_app, turn_answers, IH; reflexivity.
Qed.

Lemma one_answer_per_question_witness :
  filter is_answer
    (fst (session (fun q => q) (fun q _ _ => q) [] ([L "a"; L "b"] ++ L "exit" :: []))) =
  [BoxAnswer (L "a"); BoxAnswer (L "b")].
Proof.
  rewrite (one_answer_per_question (fun q => q) (fun q _ _ => q) [] [L "a"; L "b"]
             (L "exit") []) by (repeat constructor).
  reflexivity.
Defined.

(** The correction box is shown exactly when the spelling correction changed
    the question, and it shows the corrected question. *)
Theorem correction_shown cs ask df (q c : str) :
  In (BoxCorrected c) (turn cs ask df q) <-> c = cs q /\ cs q <> q.
Proof.
  assert (T : forall l, (forall b, In b l -> match b with BoxCorrected _ => False | _ => True end) ->
            ~ In (BoxCorrected c) l) by (intros l H Hc; exact (H _ Hc)).
  assert (N : ~ In (BoxCorrected c)
            ((if show_anomalies (cs q) then
                match detect_anomalies df with
                | [] => [BoxNoAnomalies]
                | _ => [BoxAnomalies (detect_anomalies df)]
                end
              else []) ++
             (if show_tables (cs q) then
                [BoxStatus (status_table df); BoxIps (top_ips_table df);
                 BoxUrls (top_urls_table df)]
              else []) ++
             [BoxAnswer (ask (cs q) (generate_summary df) (detect_anomalies df))])).
  { apply T; intros b Hb; repeat (apply in_app_or in Hb as [Hb|Hb]);
      destruct (show_anomalies (cs q)), (show_tables (cs q));
      try destruct (detect_anomalies df); simpl in Hb;
      repeat (destruct Hb as [<-|Hb]; [exact I|]); contradiction. }
  unfold turn; split.
  - intros H; apply in_app_or in H as [H|H]; [|contradiction].
    unfold str_eqb in H; destruct (str_eq_dec (cs q) q); simpl in H; [contradiction|].
    destruct H as [H|[]]; injection H as <-; split; auto.
  - intros [-> Hne]; apply in_or_app; left.
    unfold str_eqb; destruct (str_eq_dec (cs q) q); [contradiction|left; reflexivity].
Qed.

Lemma value_counts_nil xs : value_counts xs = [] <-> xs = [].
Proof.
  split; [|intros ->; reflexivity].
  intros E; pose proof (sum_value_counts xs) as S; rewrite E in S.
  destruct xs; [reflexivity|discriminate].
Qed.

Lemma detect_anomalies_nil df :
  detect_anomalies df = [] <-> forall e, In e df -> starts5 (status e) = false.
Proof.
  unfold detect_anomalies.
  assert (F : filter starts5 (map status df) = [] <->
              forall e, In e df -> starts5 (status e) = false).
  { induction df as [|e df IH]; simpl; [split; [tauto|reflexivity]|].
    destruct (starts5 (status e)) eqn:E; split.
    - discriminate.
    - intros H; rewrite (H e) in E; [discriminate|left; reflexivity].
    - intros H e' [<-|He']; [exact E|apply IH; auto].
    - intros H; apply IH; auto. }
  rewrite <- F, <- value_counts_nil.
  destruct (value_counts (filter starts5 (map status df))); split; congruence.
Qed.

(** The anomaly view of a turn: asked for and no status of the store starts
    with 5 gives the no-anomaly box; asked for and some status does gives
    the box with [detect_anomalies df]; not asked for gives neither. *)
Theorem anomaly_view cs ask df (q : str) :
  (In BoxNoAnomalies (turn cs ask df q) <->
     show_anomalies (cs q) = true /\ forall e, In e df -> starts5 (status e) = false) /\
  (forall an, In (BoxAnomalies an) (turn cs ask df q) <->
     show_anomalies (cs q) = true /\ an = detect_anomalies df /\
     exists e, In e df /\ starts5 (status e) = true).
Proof.
  pose proof (detect_anomalies_nil df) as D.
  assert (X : (exists e, In e df /\ starts5 (status e) = true) <->
              detect_anomalies df <> []).
  { rewrite D; split.
    - intros (e & He & Hs) H; rewrite (H e He) in Hs; discriminate.
    - intros H; induction df as [|e df IH]; [exfalso; apply H; intros e []|].
      destruct (starts5 (status e)) eqn:E; [exists e; split; [left|]; auto|].
      destruct IH as (e' & He' & Hs').
      + rewrite detect_anomalies_nil; reflexivity.
      + intros H'; apply H; intros e' [<-|He']; auto.
      + exists e'; split; [right|]; auto. }
  unfold turn; destruct (detect_anomalies df) as [|a an0] eqn:Ed.
  - assert (A : forall e, In e df -> starts5 (status e) = false) by (apply D; reflexivity).
    assert (B : ~ exists e, In e df /\ starts5 (status e) = true) by (rewrite X; auto).
    split; [|intros an];
      destruct (str_eqb (cs q) q), (show_anomalies (cs q)), (show_tables (cs q)); simpl;
      split; intros H;
      repeat (destruct H as [H|H]; [try discriminate|]); try contradiction;
      try (destruct H as [H _]; discriminate); try (destruct H as (_ & _ & H); contradiction);
      auto.
  - assert (B : exists e, In e df /\ starts5 (status e) = true) by (apply X; discriminate).
    assert (A : ~ forall e, In e df -> starts5 (status e) = false)
      by (rewrite <- D; discriminate).
    split; [|intros an];
      destruct (str_eqb (cs q) q), (show_anomalies (cs q)), (show_tables (cs q)); simpl;
      split; intros H;
      repeat (destruct H as [H|H]; [try discriminate; try (injection H as <-; auto)|]);
      try contradiction;
      try (destruct H as [H _]; discriminate); try (destruct H as [_ H]; contradiction);
      try (destruct H as (_ & -> & _); auto 10).
Qed.




